(** * Country border graph: model builder, derived styling, interaction

    A shallow embedding of [src/components/CountryGraph.tsx].  JavaScript
    arrays are lists, a [Set<string>] is a duplicate-free list in insertion
    order, numbers are exact rationals ([Q]) where the code divides and
    naturals where it counts, and objects whose identity matters live in an
    arena indexed by address. *)

From Stdlib Require Import List String Ascii Arith Bool Lia.
From Stdlib Require Import ZArith QArith Qminmax.
From Stdlib Require Import Sorted Permutation.
From Stdlib Require DecimalString.
Import ListNotations.

Close Scope Q_scope.
Local Open Scope string_scope.
Local Open Scope list_scope.
Local Open Scope nat_scope.

(** ** Data model *)

(** A field of a simulation node: [x?: number], [fx?: number | null]. *)
Inductive coord : Type :=
| Undefined
| Null
| Num (v : Q).

(** [interface CountryLink { source: string; target: string }] *)
Record CountryLink : Type := mkLink {
  source : string;
  target : string
}.

(** [interface CountryNode extends d3.SimulationNodeDatum { id; neighbors }],
    with the fields of [SimulationNodeDatum] the component reads or writes. *)
Record CountryNode : Type := mkNode {
  id : string;
  neighbors : list string;
  x : coord;
  y : coord;
  fx : coord;
  fy : coord
}.

(** The three values the build step of the effect leaves behind. *)
Record GraphModel : Type := mkModel {
  countries : list string;
  links : list CountryLink;
  nodes : list CountryNode
}.

(** ** Graph model builder (lines 57-76) *)

(** [Set.prototype.has] and [Set.prototype.add] on an insertion-ordered set. *)
Definition Set_has (s : list string) (v : string) : bool :=
  existsb (String.eqb v) s.

Definition Set_add (s : list string) (v : string) : list string :=
  if Set_has s v then s else s ++ [v].

(** The body of [adjacencyList.forEach(entry => ...)]. *)
Definition extract_step (acc : list string * list CountryLink)
  (entry : string * string) : list string * list CountryLink :=
  let '(cs, ls) := acc in
  let '(src, tgt) := entry in
  (Set_add (Set_add cs src) tgt, ls ++ [mkLink src tgt]).

Definition extract (adjacencyList : list (string * string))
  : list string * list CountryLink :=
  fold_left extract_step adjacencyList ([], []).

(** [links.filter(link => link.source === id || link.target === id)
         .map(link => link.source === id ? link.target : link.source)] *)
Definition touches (v : string) (l : CountryLink) : bool :=
  (source l =? v)%string || (target l =? v)%string.

Definition other_end (v : string) (l : CountryLink) : string :=
  if (source l =? v)%string then target l else source l.

Definition neighbors_of (ls : list CountryLink) (v : string) : list string :=
  map (other_end v) (filter (touches v) ls).

(** The object literal [{ id, neighbors: ... }]: no coordinate is set yet. *)
Definition make_node (ls : list CountryLink) (v : string) : CountryNode :=
  mkNode v (neighbors_of ls v) Undefined Undefined Undefined Undefined.

(** [Array.prototype.sort(compare)]: a stable sort (ECMAScript 2019), here by
    insertion from the right; [x] goes before the first element it does not
    compare greater than, so equal elements keep their order. *)
Section ArraySort.
Context {A : Type} (compare : A -> A -> Z).

Fixpoint sort_insert (a : A) (l : list A) : list A :=
  match l with
  | [] => [a]
  | b :: l' => if (compare a b <=? 0)%Z then a :: b :: l'
               else b :: sort_insert a l'
  end.

Definition Array_sort (l : list A) : list A :=
  fold_right sort_insert [] l.
End ArraySort.

Definition degree (d : CountryNode) : nat := List.length (neighbors d).

(** [(a, b) => b.neighbors.length - a.neighbors.length] *)
Definition by_connections (a b : CountryNode) : Z :=
  (Z.of_nat (degree b) - Z.of_nat (degree a))%Z.

Definition build (adjacencyList : list (string * string)) : GraphModel :=
  let '(cs, ls) := extract adjacencyList in
  mkModel cs ls (Array_sort by_connections (map (make_node ls) cs)).

(** *** The builder in the words of the specification *)

(** All names of the pair list in scan order, source before target. *)
Definition names (adjacencyList : list (string * string)) : list string :=
  flat_map (fun e => [fst e; snd e]) adjacencyList.

(** First-seen order: every name once, at its first position. *)
Fixpoint first_seen (l : list string) : list string :=
  match l with
  | [] => []
  | v :: l' => v :: filter (fun w => negb (w =? v)%string) (first_seen l')
  end.

(** The comparator [(a, b) => key(b) - key(a)], the order it asks for and
    the elements of one key. *)
Definition by_key {A : Type} (key : A -> nat) (a b : A) : Z :=
  (Z.of_nat (key b) - Z.of_nat (key a))%Z.

Definition ge_key {A : Type} (key : A -> nat) (a b : A) : Prop :=
  key b <= key a.

Definition has_key {A : Type} (key : A -> nat) (k : nat) (a : A) : bool :=
  key a =? k.

(** What a run of [Array.prototype.sort] with comparator [by_key key]
    guarantees of its result [l'] for the input [l]: descending keys, and
    for every key the elements carrying it in their input order (which
    makes [l'] a permutation of [l]). *)
Definition stable_sort_desc {A : Type} (key : A -> nat) (l l' : list A)
  : Prop :=
  StronglySorted (ge_key key) l' /\
  forall k, filter (has_key key k) l' = filter (has_key key k) l.

(** A run of the build step, with the engine's sort taken by its contract. *)
Definition builds (adjacencyList : list (string * string)) (g : GraphModel)
  : Prop :=
  countries g = fst (extract adjacencyList) /\
  links g = snd (extract adjacencyList) /\
  stable_sort_desc degree
    (map (make_node (links g)) (countries g)) (nodes g).

(** How often the pair [(a, b)], in this direction, occurs in the input. *)
Definition pair_occ (a b : string) (adjacencyList : list (string * string))
  : nat :=
  List.length
    (filter (fun e => (fst e =? a)%string && (snd e =? b)%string)
       adjacencyList).

(** The link object pushed for an input pair. *)
Definition link_of (e : string * string) : CountryLink :=
  mkLink (fst e) (snd e).

(** The scenario of the specification, and an input that lists one border
    in both directions. *)
Definition scenario : list (string * string) := [("A", "B"); ("B", "C")].

Definition mirrored : list (string * string) := [("A", "B"); ("B", "A")].

(** ** Derived styling (lines 121-142, 153) *)

(** [d.neighbors.length] as a number. *)
Definition num (n : nat) : Q := inject_Z (Z.of_nat n).

(** [4 + Math.min(d.neighbors.length / 2, 5)] *)
Definition radius_of (n : nat) : Q := (4 + Qmin (num n / 2) 5)%Q.

(** [8 + Math.min(d.neighbors.length / 2, 5)], the radius while hovered. *)
Definition hover_radius_of (n : nat) : Q := (8 + Qmin (num n / 2) 5)%Q.

(** [10 + Math.min(d.neighbors.length / 10, 2)], printed with the unit px. *)
Definition font_size_of (n : nat) : Q := (10 + Qmin (num n / 10) 2)%Q.

Definition circle_r (d : CountryNode) : Q := radius_of (degree d).
Definition hover_r (d : CountryNode) : Q := hover_radius_of (degree d).
Definition font_size (d : CountryNode) : Q := font_size_of (degree d).

Section Fill.
(** The scale [d3.scaleLinear().domain([0, 20, 40]).range(...)
    .interpolate(d3.interpolateHcl)] belongs to d3; the component only
    chooses the number it is applied to. *)
Variable colorScale : Q -> string.

(** [colorScale(Math.min(d.neighbors.length, 40))] *)
Definition fill_of (n : nat) : string := colorScale (Qmin (num n) 40).

Definition circle_fill (d : CountryNode) : string := fill_of (degree d).
End Fill.

(** The light-theme colour stops, taken stepwise, as a sample scale. *)
Definition sample_scale (q : Q) : string :=
  if Qle_bool q 0 then "#67B7D1"
  else if Qle_bool q 20 then "#3E5C76" else "#0A2463".

(** ** Click notification (lines 202-211) *)

Record Toast : Type := mkToast {
  title : string;
  description : string
}.

(** A length inside a template literal: its decimal digits. *)
Definition toString (n : nat) : string :=
  DecimalString.NilEmpty.string_of_uint (Nat.to_uint n).

(** [Array.prototype.join] and [Array.prototype.slice(0, n)]. *)
Definition Array_join (sep : string) (l : list string) : string :=
  String.concat sep l.

Definition Array_slice0 {A : Type} (n : nat) (l : list A) : list A :=
  firstn n l.

(** The suffix [d.neighbors.length > 5 ? ` and ${...- 5} more...` : ""]. *)
Definition overflow (n : nat) : string :=
  if 5 <? n then " and " ++ toString (n - 5) ++ " more..." else "".

Definition click (d : CountryNode) : Toast :=
  mkToast
    (id d ++ " has borders with " ++ toString (degree d) ++ " countries")
    (Array_join ", " (Array_slice0 5 (neighbors d)) ++ overflow (degree d)).

(** ** Simulation, object arena and drag handlers (lines 283-305) *)

Definition addr : Type := nat.

(** The part of a [d3.Simulation] the component sets: its node and link
    arrays (by address), the strength given to the charge force, alpha, its
    decay and target, and whether its timer runs.  The centre, link and
    collision forces are fixed when the simulation is created. *)
Record Simulation : Type := mkSim {
  sim_nodes : list addr;
  sim_links : list addr;
  charge : Q;
  alpha : Q;
  alphaDecay : Q;
  alphaTarget : Q;
  running : bool
}.

(** [simulation.force("charge", d3.forceManyBody().strength(s))],
    [.alpha(a)], [.alphaTarget(a)], [.restart()] and [.stop()]. *)
Definition force_charge (s : Q) (sim : Simulation) : Simulation :=
  mkSim (sim_nodes sim) (sim_links sim) s (alpha sim) (alphaDecay sim)
    (alphaTarget sim) (running sim).

Definition set_alpha (a : Q) (sim : Simulation) : Simulation :=
  mkSim (sim_nodes sim) (sim_links sim) (charge sim) a (alphaDecay sim)
    (alphaTarget sim) (running sim).

Definition set_alphaTarget (a : Q) (sim : Simulation) : Simulation :=
  mkSim (sim_nodes sim) (sim_links sim) (charge sim) (alpha sim)
    (alphaDecay sim) a (running sim).

Definition restart (sim : Simulation) : Simulation :=
  mkSim (sim_nodes sim) (sim_links sim) (charge sim) (alpha sim)
    (alphaDecay sim) (alphaTarget sim) true.

Definition stop (sim : Simulation) : Simulation :=
  mkSim (sim_nodes sim) (sim_links sim) (charge sim) (alpha sim)
    (alphaDecay sim) (alphaTarget sim) false.

(** Every node and link object ever created, at the index that is its
    identity; an object is never moved, only updated in place. *)
Record Store : Type := mkStore {
  node_objs : list CountryNode;
  link_objs : list CountryLink
}.

(** An update of the object at address [n]; an address past the end of
    the arena names no object and nothing is written. *)
Fixpoint update_nth {A : Type} (n : nat) (f : A -> A) (l : list A) : list A :=
  match l, n with
  | [], _ => []
  | a :: l', O => f a :: l'
  | a :: l', S n' => a :: update_nth n' f l'
  end.

(** [d.fx = px; d.fy = py] *)
Definition set_pin (px py : coord) (d : CountryNode) : CountryNode :=
  mkNode (id d) (neighbors d) (x d) (y d) px py.

(** A d3-drag event: the count of other active gestures and the pointer in
    the coordinates of the dragged node's container. *)
Record DragEvent : Type := mkDrag {
  active : nat;
  ev_x : Q;
  ev_y : Q
}.

(** [!event.active] *)
Definition falsy (n : nat) : bool := n =? 0.

(** [if (!event.active) simulation.alphaTarget(0.3).restart();
     d.fx = d.x; d.fy = d.y;] *)
Definition dragstarted (event : DragEvent) (d : addr)
  (st : Store * Simulation) : Store * Simulation :=
  let '(h, sim) := st in
  let sim' :=
    if falsy (active event) then restart (set_alphaTarget (3 # 10) sim)
    else sim in
  (mkStore (update_nth d (fun n => set_pin (x n) (y n) n) (node_objs h))
     (link_objs h), sim').

(** [d.fx = event.x; d.fy = event.y;] *)
Definition dragged (event : DragEvent) (d : addr)
  (st : Store * Simulation) : Store * Simulation :=
  let '(h, sim) := st in
  (mkStore
     (update_nth d (set_pin (Num (ev_x event)) (Num (ev_y event)))
        (node_objs h))
     (link_objs h), sim).

(** [if (!event.active) simulation.alphaTarget(0);
     d.fx = null; d.fy = null;] *)
Definition dragended (event : DragEvent) (d : addr)
  (st : Store * Simulation) : Store * Simulation :=
  let '(h, sim) := st in
  let sim' :=
    if falsy (active event) then set_alphaTarget 0 sim else sim in
  (mkStore (update_nth d (set_pin Null Null) (node_objs h)) (link_objs h),
   sim').

(** One drag gesture as d3-drag delivers it: start, any moves, end. *)
Definition drag_moves (moves : list DragEvent) (d : addr)
  (st : Store * Simulation) : Store * Simulation :=
  fold_left (fun s ev => dragged ev d s) moves st.

Definition drag_gesture (start : DragEvent) (moves : list DragEvent)
  (finish : DragEvent) (d : addr) (st : Store * Simulation)
  : Store * Simulation :=
  dragended finish d (drag_moves moves d (dragstarted start d st)).

(** The node object at an address, if there is one. *)
Definition node_at (st : Store * Simulation) (d : addr) : option CountryNode :=
  nth_error (node_objs (fst st)) d.

(** ** The two effects of the component (lines 47-280) *)

Section Component.
(** The data set [adjacencyList] is imported from [../data/countriesData];
    [place i] is where [d3.forceSimulation] puts the [i]-th node of the
    array it is given. *)
Variable adjacencyList : list (string * string).
Variable place : nat -> Q * Q.

(** What outlives a render: the objects, [simulationRef.current], and the
    dependency array [[forceStrength]] of the last committed render. *)
Record Component : Type := mkComp {
  heap : Store;
  simulationRef : option Simulation;
  deps : option Q
}.

Definition unmounted : Component := mkComp (mkStore [] []) None None.

Definition set_pos (p : Q * Q) (d : CountryNode) : CountryNode :=
  mkNode (id d) (neighbors d) (Num (fst p)) (Num (snd p)) (fx d) (fy d).

Definition place_nodes (l : list CountryNode) : list CountryNode :=
  map (fun e => set_pos (place (fst e)) (snd e))
    (combine (seq 0 (List.length l)) l).

(** The first effect: build the model, allocate its node and link
    objects, create the simulation over them and store it in
    [simulationRef]. *)
Definition build_effect (forceStrength : Q) (c : Component) : Component :=
  let g := build adjacencyList in
  let h := heap c in
  let sim :=
    mkSim (seq (List.length (node_objs h)) (List.length (nodes g)))
      (seq (List.length (link_objs h)) (List.length (links g)))
      (- forceStrength) 1 (1 # 100) 0 true in
  mkComp
    (mkStore (node_objs h ++ place_nodes (nodes g)) (link_objs h ++ links g))
    (Some sim) (deps c).

(** Its cleanup, [simulation.stop()], on the simulation it created. *)
Definition build_cleanup (c : Component) : Component :=
  mkComp (heap c) (option_map stop (simulationRef c)) (deps c).

(** The second effect, "Update force strength when it changes". *)
Definition strength_effect (forceStrength : Q) (c : Component) : Component :=
  match simulationRef c with
  | Some sim =>
      mkComp (heap c)
        (Some (restart (set_alpha (3 # 10)
                          (force_charge (- forceStrength) sim))))
        (deps c)
  | None => c
  end.

Definition commit (forceStrength : Q) (c : Component) : Component :=
  mkComp (heap c) (simulationRef c) (Some forceStrength).

(** A render with the prop [forceStrength]: React runs the cleanups and
    then the effects, in source order, of every effect whose dependency
    array changed; both effects depend on [[forceStrength]]. *)
Definition render (forceStrength : Q) (c : Component) : Component :=
  match deps c with
  | None =>
      commit forceStrength
        (strength_effect forceStrength (build_effect forceStrength c))
  | Some old =>
      if Qeq_bool old forceStrength then c
      else commit forceStrength
             (strength_effect forceStrength
                (build_effect forceStrength (build_cleanup c)))
  end.

(** The node and link objects the current simulation works on. *)
Definition live_nodes (c : Component) : list addr :=
  match simulationRef c with Some sim => sim_nodes sim | None => [] end.

Definition live_links (c : Component) : list addr :=
  match simulationRef c with Some sim => sim_links sim | None => [] end.
End Component.

(** ** Viewport transform (lines 29-45, 225-232) *)

Module Zoom.

(** A [d3.ZoomTransform]: scale [k] and translation [(tx, ty)]. *)
Record Transform : Type := mkTransform {
  k : Q;
  tx : Q;
  ty : Q
}.

(** [d3.zoomIdentity], the transform of an element not yet zoomed and the
    one [resetView] asks for. *)
Definition zoomIdentity : Transform := mkTransform 1 0 0.

(** [.scaleExtent([0.1, 4])] *)
Definition scaleExtent : Q * Q := (1 # 10, 4)%Q.

(** A pointer gesture: the factor it asks the scale to change by and the
    translation it adds. *)
Record Gesture : Type := mkGesture {
  dscale : Q;
  dx : Q;
  dy : Q
}.

Definition clamp (lo hi v : Q) : Q := Qmax lo (Qmin hi v).

(** Modelled from the spec: the gesture handling of the zoom behaviour is
    d3-zoom's and not part of the sources; section 4.3 gives
    [applyGesture(delta)] as updating translate and scale, the scale
    clamped to the configured range, gestures accumulating. *)
Definition applyGesture (t : Transform) (g : Gesture) : Transform :=
  mkTransform
    (clamp (fst scaleExtent) (snd scaleExtent) (k t * dscale g))
    (tx t + dx g) (ty t + dy g).

(** [resetView]: the transform is set to [d3.zoomIdentity]. *)
Definition resetView (t : Transform) : Transform := zoomIdentity.

Inductive Event : Type :=
| Pointer (g : Gesture)
| Reset.

Definition step (t : Transform) (e : Event) : Transform :=
  match e with
  | Pointer g => applyGesture t g
  | Reset => resetView t
  end.

Definition run (es : list Event) : Transform :=
  fold_left step es zoomIdentity.

(** Invariant I3 of the specification. *)
Definition in_extent (t : Transform) : Prop :=
  (fst scaleExtent <= k t <= snd scaleExtent)%Q.

End Zoom.

(** ** Further parts of the component *)

(** The neighbour list as the later revision of the component computes
    it, from the pairs themselves:
    [adjacencyList.filter(entry => entry[0] === id || entry[1] === id)
                  .map(entry => entry[0] === id ? entry[1] : entry[0])] *)
Definition neighbors_from_pairs (adjacencyList : list (string * string))
  (v : string) : list string :=
  map (fun entry => if (fst entry =? v)%string then snd entry else fst entry)
    (filter (fun entry => (fst entry =? v)%string || (snd entry =? v)%string)
       adjacencyList).

(** [`Loaded ${countries.size} countries with ${links.length} borders`],
    the text of the toast shown once the layout has had time to settle. *)
Definition loaded_message (g : GraphModel) : string :=
  "Loaded " ++ toString (List.length (countries g)) ++ " countries with "
  ++ toString (List.length (links g)) ++ " borders".

(** The number of neighbour entries over all nodes, and what one input
    pair adds to it. *)
Definition total_degree (g : GraphModel) : nat :=
  list_sum (map degree (nodes g)).

Definition pair_weight (e : string * string) : nat :=
  if (fst e =? snd e)%string then 1 else 2.

(** *** Hover styling (lines 104-145 and 147-201)

    The rendered elements with the attribute values they settle at.  A
    line inherits [stroke] and [stroke-opacity] from its group until a
    handler sets them on the line itself. *)

(** A link object once the link force has put the node objects in place
    of the names, which is how the handlers compare it with [d]. *)
Record SimLink : Type := mkSimLink {
  source_node : addr;
  target_node : addr
}.

Record NodeElem : Type := mkNodeElem {
  node_datum : addr;
  attr_r : Q;
  attr_fill : string;
  text_opacity : Q
}.

Record LineElem : Type := mkLineElem {
  line_datum : SimLink;
  line_opacity : option Q;
  line_stroke : option string;
  line_width : Q
}.

Record Scene : Type := mkScene {
  group_stroke : string;
  group_opacity : Q;
  node_elems : list NodeElem;
  line_elems : list LineElem
}.

Section Hover.
Variable colorScale : Q -> string.
Variable h : Store.

(** [d.neighbors.length] for the node object at an address. *)
Definition degree_at (d : addr) : nat :=
  match nth_error (node_objs h) d with
  | Some n => degree n
  | None => 0
  end.

(** The elements as first created. *)
Definition draw_node (d : addr) : NodeElem :=
  mkNodeElem d (radius_of (degree_at d)) (fill_of colorScale (degree_at d)) 0.

Definition draw_line (l : SimLink) : LineElem :=
  mkLineElem l None None (8 # 10).

Definition draw (ns : list addr) (ls : list SimLink) : Scene :=
  mkScene "#999" (4 # 10) (map draw_node ns) (map draw_line ls).

(** [l.source === d || l.target === d] *)
Definition incident (d : addr) (l : SimLink) : bool :=
  (source_node l =? d) || (target_node l =? d).

Definition highlight_line (d : addr) (e : LineElem) : LineElem :=
  if incident d (line_datum e)
  then mkLineElem (line_datum e) (Some (8 # 10)%Q) (Some "#FF6B6B") 2
  else mkLineElem (line_datum e) (Some (1 # 10)%Q) (Some "#999") (8 # 10).

Definition reset_line (e : LineElem) : LineElem :=
  mkLineElem (line_datum e) (Some (4 # 10)%Q) (Some "#999") (8 # 10).

(** The [mouseover] and [mouseout] handlers of the [i]-th node element. *)
Definition mouseover (i : nat) (sc : Scene) : Scene :=
  match nth_error (node_elems sc) i with
  | Some e =>
      let d := node_datum e in
      mkScene (group_stroke sc) (group_opacity sc)
        (update_nth i
           (fun e => mkNodeElem (node_datum e)
                       (hover_radius_of (degree_at d)) "#FF6B6B" 1)
           (node_elems sc))
        (map (highlight_line d) (line_elems sc))
  | None => sc
  end.

Definition mouseout (i : nat) (sc : Scene) : Scene :=
  match nth_error (node_elems sc) i with
  | Some e =>
      let d := node_datum e in
      mkScene (group_stroke sc) (group_opacity sc)
        (update_nth i
           (fun e => mkNodeElem (node_datum e)
                       (radius_of (degree_at d))
                       (fill_of colorScale (degree_at d)) 0)
           (node_elems sc))
        (map reset_line (line_elems sc))
  | None => sc
  end.
End Hover.

(** What a line is painted with: its own attribute, else the group's. *)
Definition painted (sc : Scene) (e : LineElem) : Q * string * Q :=
  (match line_opacity e with Some o => o | None => group_opacity sc end,
   match line_stroke e with Some c => c | None => group_stroke sc end,
   line_width e).

Definition painted_lines (sc : Scene) : list (Q * string * Q) :=
  map (painted sc) (line_elems sc).

(** *** Sequences of renders and of drags *)





(** Case analysis on every comparison of names in the goal. *)
Ltac string_cases :=
  repeat match goal with
    | |- context [String.eqb ?a ?b] => destruct (String.eqb_spec a b)
    | |- context [string_dec ?a ?b] => destruct (string_dec a b)
    end.

(** * Properties *)

(** ** Lists *)

Lemma filter_compose {A : Type} (f g : A -> bool) (l : list A) :
  filter f (filter g l) = filter (fun a => g a && f a) l.
Proof.
  induction l as [|a l IH]; simpl; [reflexivity|].
  destruct (g a); simpl; [destruct (f a)|]; now rewrite IH.
Qed.

Lemma Set_has_In (s : list string) (v : string) :
  Set_has s v = true <-> In v s.
Proof.
  unfold Set_has. rewrite existsb_exists. split.
  - intros (w & Hw & E). apply String.eqb_eq in E. now subst.
  - intros H. exists v. split; [assumption | apply String.eqb_refl].
Qed.

Lemma Set_has_app (s t : list string) (v : string) :
  Set_has (s ++ t) v = Set_has s v || Set_has t v.
Proof. unfold Set_has. apply existsb_app. Qed.

(** ** The scan: countries in first-seen order, links as given *)

Lemma adds_first_seen (l acc : list string) :
  fold_left Set_add l acc =
  acc ++ filter (fun w => negb (Set_has acc w)) (first_seen l).
Proof.
  revert acc. induction l as [|v l IH]; intros acc; simpl.
  - now rewrite app_nil_r.
  - rewrite IH. unfold Set_add. destruct (Set_has acc v) eqn:Hv; simpl.
    + f_equal. rewrite filter_compose. apply filter_ext_in.
      intros w _. destruct (String.eqb_spec w v) as [->|]; simpl.
      * now rewrite Hv.
      * reflexivity.
    + rewrite <- app_assoc. simpl. do 2 f_equal.
      rewrite filter_compose. apply filter_ext.
      intros w. rewrite Set_has_app. unfold Set_has at 2. simpl.
      rewrite String.eqb_sym, orb_false_r, negb_orb. apply andb_comm.
Qed.

Lemma extract_fold (l : list (string * string)) (cs : list string)
  (ls : list CountryLink) :
  fold_left extract_step l (cs, ls) =
  (fold_left Set_add (names l) cs, ls ++ map link_of l).
Proof.
  revert cs ls. induction l as [|[s t] l IH]; intros cs ls; simpl.
  - now rewrite app_nil_r.
  - rewrite IH, <- app_assoc. reflexivity.
Qed.

Lemma extract_spec (l : list (string * string)) :
  extract l = (first_seen (names l), map link_of l).
Proof.
  unfold extract. rewrite extract_fold, adds_first_seen. simpl.
  f_equal. induction (first_seen (names l)) as [|a r IH]; simpl; congruence.
Qed.

(** ** The sort: what [Array_sort] guarantees, and that the guarantee
    leaves one result only *)

Section StableSort.
Context {A : Type} (key : A -> nat).

Lemma sort_insert_In (a c : A) (l : list A) :
  In c (sort_insert (by_key key) a l) <-> c = a \/ In c l.
Proof.
  induction l as [|b l IH]; simpl.
  - intuition congruence.
  - destruct (by_key key a b <=? 0)%Z; simpl; [|rewrite IH];
      intuition congruence.
Qed.

Lemma sort_insert_perm (a : A) (l : list A) :
  Permutation (sort_insert (by_key key) a l) (a :: l).
Proof.
  induction l as [|b l IH]; simpl; [reflexivity|].
  destruct (by_key key a b <=? 0)%Z; [reflexivity|].
  rewrite IH. apply perm_swap.
Qed.

Lemma sort_insert_class (k : nat) (a : A) (l : list A) :
  filter (has_key key k) (sort_insert (by_key key) a l) =
  filter (has_key key k) (a :: l).
Proof.
  induction l as [|b l IH]; [reflexivity|].
  cbn [sort_insert]. destruct (Z.leb_spec (by_key key a b) 0) as [_|Hlt];
    [reflexivity|].
  cbn [filter]. rewrite IH. cbn [filter]. unfold has_key, by_key in *.
  destruct (Nat.eqb_spec (key a) k), (Nat.eqb_spec (key b) k);
    try reflexivity.
  exfalso. lia.
Qed.

Lemma sort_insert_sorted (a : A) (l : list A) :
  StronglySorted (ge_key key) l ->
  StronglySorted (ge_key key) (sort_insert (by_key key) a l).
Proof.
  induction 1 as [|b l Hl IH Hb]; cbn [sort_insert].
  - repeat constructor.
  - destruct (Z.leb_spec (by_key key a b) 0) as [Hle|Hlt]; unfold by_key in *.
    + constructor; [now constructor|]. constructor.
      * unfold ge_key. lia.
      * eapply Forall_impl; [|exact Hb]. unfold ge_key. intros c Hc. lia.
    + constructor; [exact IH|]. apply Forall_forall. intros c Hc.
      apply sort_insert_In in Hc. destruct Hc as [->|Hc].
      * unfold ge_key. lia.
      * rewrite Forall_forall in Hb. now apply Hb.
Qed.

Lemma Array_sort_perm (l : list A) :
  Permutation (Array_sort (by_key key) l) l.
Proof.
  induction l as [|a l IH]; simpl; [reflexivity|].
  rewrite sort_insert_perm. now constructor.
Qed.

Lemma Array_sort_stable (l : list A) :
  stable_sort_desc key l (Array_sort (by_key key) l).
Proof.
  split.
  - induction l as [|a l IH]; simpl; [constructor|].
    now apply sort_insert_sorted.
  - intros k. change (filter (has_key key k) (Array_sort (by_key key) l) =
                        filter (has_key key k) l).
    induction l as [|a l IH]; [reflexivity|].
    change (Array_sort (by_key key) (a :: l))
      with (sort_insert (by_key key) a (Array_sort (by_key key) l)).
    rewrite sort_insert_class. cbn [filter]. now rewrite IH.
Qed.

(** Two lists with descending keys and the same elements, in the same
    order, under every key are one list. *)
Lemma sorted_classes_eq (l1 l2 : list A) :
  StronglySorted (ge_key key) l1 -> StronglySorted (ge_key key) l2 ->
  (forall k, filter (has_key key k) l1 = filter (has_key key k) l2) ->
  l1 = l2.
Proof.
  intros S1. revert l2. induction S1 as [|a l1 S1 IH Ha]; intros l2 S2 E.
  - destruct l2 as [|b l2]; [reflexivity|].
    specialize (E (key b)). cbn in E. unfold has_key in E.
    rewrite Nat.eqb_refl in E. discriminate.
  - destruct S2 as [|b l2 S2 Hb].
    + specialize (E (key a)). cbn in E. unfold has_key in E.
      rewrite Nat.eqb_refl in E. discriminate.
    + assert (Hab : key b <= key a).
      { assert (Hin : In b (filter (has_key key (key b)) (a :: l1))).
        { rewrite E. cbn. unfold has_key. rewrite Nat.eqb_refl. now left. }
        apply filter_In in Hin. destruct Hin as [[->|Hin] _]; [lia|].
        rewrite Forall_forall in Ha. now apply Ha. }
      assert (Hba : key a <= key b).
      { assert (Hin : In a (filter (has_key key (key a)) (b :: l2))).
        { rewrite <- E. cbn. unfold has_key. rewrite Nat.eqb_refl. now left. }
        apply filter_In in Hin. destruct Hin as [[->|Hin] _]; [lia|].
        rewrite Forall_forall in Hb. now apply Hb. }
      assert (Hk : key a = key b) by lia.
      pose proof (E (key a)) as E0. cbn in E0. unfold has_key in E0.
      rewrite Nat.eqb_refl in E0. rewrite <- Hk, Nat.eqb_refl in E0.
      injection E0 as -> E0. f_equal. apply IH; [assumption|].
      intros k. specialize (E k). cbn in E.
      destruct (has_key key k b); [now injection E | assumption].
Qed.

Lemma stable_sort_unique (l l1 l2 : list A) :
  stable_sort_desc key l l1 -> stable_sort_desc key l l2 -> l1 = l2.
Proof.
  intros [S1 E1] [S2 E2]. apply sorted_classes_eq; try assumption.
  intros k. now rewrite E1, E2.
Qed.
End StableSort.

(** ** Graph model builder *)

Lemma build_eq (l : list (string * string)) :
  build l =
  mkModel (first_seen (names l)) (map link_of l)
    (Array_sort by_connections
       (map (make_node (map link_of l)) (first_seen (names l)))).
Proof. unfold build. now rewrite extract_spec. Qed.

(** The functional builder is one of the runs [builds] admits. *)
Lemma build_runs (l : list (string * string)) : builds l (build l).
Proof.
  unfold builds. rewrite build_eq, extract_spec.
  cbn [countries links nodes fst snd].
  repeat split; try apply (Array_sort_stable degree).
Qed.

Lemma first_seen_In (v : string) (l : list string) :
  In v (first_seen l) <-> In v l.
Proof.
  induction l as [|a l IH]; simpl; [reflexivity|].
  rewrite filter_In, IH. destruct (String.eqb_spec v a) as [->|Hne]; simpl.
  - intuition.
  - intuition congruence.
Qed.

Lemma first_seen_NoDup (l : list string) : NoDup (first_seen l).
Proof.
  induction l as [|a l IH]; simpl; constructor.
  - rewrite filter_In, String.eqb_refl. simpl. intros [_ H]. discriminate.
  - now apply NoDup_filter.
Qed.

Lemma map_id_make_node (ls : list CountryLink) (cs : list string) :
  map id (map (make_node ls) cs) = cs.
Proof. rewrite map_map. simpl. apply map_id. Qed.

(** Every node of the model is the object literal for its own name. *)
Lemma build_node_shape (l : list (string * string)) (d : CountryNode) :
  In d (nodes (build l)) ->
  In (id d) (names l) /\ d = make_node (map link_of l) (id d).
Proof.
  rewrite build_eq. cbn [nodes]. intros H.
  apply (Permutation_in _ (Array_sort_perm degree _)) in H.
  apply in_map_iff in H. destruct H as (v & <- & Hv).
  rewrite first_seen_In in Hv. split; [exact Hv | reflexivity].
Qed.

(** C2 as stated fails on the scenario: the node array starts with B, the
    first-seen order with A. *)
Lemma build_nodes_not_first_seen :
  map id (nodes (build scenario)) = ["B"; "A"; "C"] /\
  first_seen (names scenario) = ["A"; "B"; "C"] /\
  map id (nodes (build scenario)) <> first_seen (names scenario).
Proof. repeat split. discriminate. Qed.

(** C2, amended: the unique country names are collected in first-seen
    order; the node array holds one node per such name, placed by
    descending neighbour count with equal counts left in first-seen order;
    the edge list is the input pair list, in order and content. *)
Theorem build_nodes_and_links (l : list (string * string)) :
  countries (build l) = first_seen (names l) /\
  NoDup (countries (build l)) /\
  (forall v, In v (countries (build l)) <-> In v (names l)) /\
  Permutation (map id (nodes (build l))) (countries (build l)) /\
  stable_sort_desc degree
    (map (make_node (links (build l))) (countries (build l)))
    (nodes (build l)) /\
  links (build l) = map link_of l /\
  map (fun e => (source e, target e)) (links (build l)) = l.
Proof.
  rewrite build_eq. cbn [countries links nodes]. repeat split.
  - apply first_seen_NoDup.
  - apply first_seen_In.
  - apply first_seen_In.
  - rewrite <- (map_id_make_node (map link_of l) (first_seen (names l))) at 2.
    apply Permutation_map, (Array_sort_perm degree).
  - apply (Array_sort_stable degree).
  - apply (Array_sort_stable degree).
  - rewrite map_map. unfold link_of. simpl.
    induction l as [|[s t] l IH]; simpl; congruence.
Qed.

(** ** Neighbour lists *)

Lemma neighbors_of_In (l : list (string * string)) (v u : string) :
  In u (neighbors_of (map link_of l) v) <-> In (u, v) l \/ In (v, u) l.
Proof.
  unfold neighbors_of. rewrite in_map_iff. split.
  - intros (e & <- & He). apply filter_In in He. destruct He as [He Ht].
    apply in_map_iff in He. destruct He as ([s t] & <- & Hst).
    unfold touches, other_end, link_of in *. simpl in *.
    destruct (String.eqb_spec s v) as [->|Hs]; [now right|].
    simpl in Ht. apply String.eqb_eq in Ht. subst t. now left.
  - intros [H|H].
    + exists (link_of (u, v)). unfold other_end, touches, link_of. simpl. split.
      * destruct (String.eqb_spec u v); congruence.
      * apply filter_In. split; [exact (in_map link_of l (u, v) H)|].
        simpl. rewrite String.eqb_refl. apply orb_true_r.
    + exists (link_of (v, u)). unfold other_end, touches, link_of. simpl. split.
      * now rewrite String.eqb_refl.
      * apply filter_In. split; [exact (in_map link_of l (v, u) H)|].
        simpl. now rewrite String.eqb_refl.
Qed.

Lemma neighbors_of_cons (s t : string) (ls : list CountryLink) (v : string) :
  neighbors_of (mkLink s t :: ls) v =
  if (s =? v)%string then t :: neighbors_of ls v
  else if (t =? v)%string then s :: neighbors_of ls v
  else neighbors_of ls v.
Proof.
  unfold neighbors_of, touches, other_end. simpl.
  destruct (s =? v)%string eqn:Es; simpl; [now rewrite Es|].
  destruct (t =? v)%string; simpl; [now rewrite Es | reflexivity].
Qed.

Lemma pair_occ_cons (a b s t : string) (l : list (string * string)) :
  pair_occ a b ((s, t) :: l) =
  (if (s =? a)%string && (t =? b)%string then 1 else 0) + pair_occ a b l.
Proof.
  unfold pair_occ. simpl.
  now destruct ((s =? a)%string && (t =? b)%string).
Qed.

Lemma neighbors_of_count (l : list (string * string)) (v u : string) :
  count_occ string_dec (neighbors_of (map link_of l) v) u =
  pair_occ v u l + (if (u =? v)%string then 0 else pair_occ u v l).
Proof.
  induction l as [|[s t] l IH].
  - unfold pair_occ. simpl. now destruct (u =? v)%string.
  - cbn [map]. unfold link_of at 1. cbn [fst snd].
    rewrite neighbors_of_cons, !pair_occ_cons.
    string_cases; subst; cbn [orb andb count_occ];
      string_cases; subst; try congruence; lia.
Qed.

(** C3 as stated fails on an input listing one border in both directions:
    A's neighbour list names B twice. *)
Lemma mirrored_pair_neighbor_twice :
  In (make_node (links (build mirrored)) "A") (nodes (build mirrored)) /\
  neighbors (make_node (links (build mirrored)) "A") = ["B"; "B"] /\
  ~ NoDup (neighbors (make_node (links (build mirrored)) "A")).
Proof.
  repeat split.
  - now left.
  - cbn. intros H. inversion H as [|? ? Hin _]. apply Hin. now left.
Qed.

(** C3, amended: pairs are read as undirected, [u] is a neighbour of [v]
    exactly when the input holds [(u, v)] or [(v, u)]; the neighbour list
    has one entry per input pair relating the two (a pair and its mirror
    give two entries), so it names a neighbour as often as the input
    relates it to the node. *)
Theorem neighbors_undirected_per_pair (l : list (string * string))
  (d : CountryNode) (u : string) :
  In d (nodes (build l)) ->
  (In u (neighbors d) <-> In (u, id d) l \/ In (id d, u) l) /\
  count_occ string_dec (neighbors d) u =
    pair_occ (id d) u l +
    (if (u =? id d)%string then 0 else pair_occ u (id d) l).
Proof.
  intros H. apply build_node_shape in H. destruct H as [_ E].
  assert (En : neighbors d = neighbors_of (map link_of l) (id d))
    by (rewrite E at 1; reflexivity).
  rewrite En. split.
  - apply neighbors_of_In.
  - apply neighbors_of_count.
Qed.

Lemma neighbors_undirected_per_pair_witness :
  In (make_node (links (build mirrored)) "A") (nodes (build mirrored)) /\
  (In "B" ["B"; "B"] <-> In ("B", "A") mirrored \/ In ("A", "B") mirrored) /\
  count_occ string_dec ["B"; "B"] "B" = 2.
Proof.
  split; [now left|].
  apply (neighbors_undirected_per_pair mirrored
           (make_node (links (build mirrored)) "A") "B").
  now left.
Defined.

(** Where the input relates two names at most once, in either direction,
    the neighbour lists are duplicate-free. *)
Lemma neighbors_NoDup (l : list (string * string)) (d : CountryNode) :
  (forall a b,
     pair_occ a b l + (if (b =? a)%string then 0 else pair_occ b a l) <= 1) ->
  In d (nodes (build l)) -> NoDup (neighbors d).
Proof.
  intros Hl Hd. apply (NoDup_count_occ string_dec). intros u.
  apply build_node_shape in Hd. destruct Hd as [_ E].
  rewrite E at 1. cbn [neighbors make_node].
  rewrite neighbors_of_count. apply Hl.
Qed.

(** C4: on [[["A","B"],["B","C"]]] the builder gives the three nodes A, B
    and C and the two edges, A and C each with neighbour list [B], B with
    [A, C]; B's radius is strictly the largest. *)
Theorem scenario_model :
  let a := mkNode "A" ["B"] Undefined Undefined Undefined Undefined in
  let b := mkNode "B" ["A"; "C"] Undefined Undefined Undefined Undefined in
  let c := mkNode "C" ["B"] Undefined Undefined Undefined Undefined in
  countries (build scenario) = ["A"; "B"; "C"] /\
  nodes (build scenario) = [b; a; c] /\
  List.length (nodes (build scenario)) = 3 /\
  links (build scenario) = [mkLink "A" "B"; mkLink "B" "C"] /\
  (circle_r a < circle_r b)%Q /\ (circle_r c < circle_r b)%Q.
Proof. cbv zeta. repeat split. Qed.

Lemma builds_unique (l : list (string * string)) (g1 g2 : GraphModel) :
  builds l g1 -> builds l g2 -> g1 = g2.
Proof.
  destruct g1 as [c1 l1 n1], g2 as [c2 l2 n2]. unfold builds. simpl.
  intros (-> & -> & S1) (-> & -> & S2). f_equal.
  exact (stable_sort_unique degree _ _ _ S1 S2).
Qed.

(** Every run ends, and with the functional builder's model. *)
Lemma builds_iff_build (l : list (string * string)) (g : GraphModel) :
  builds l g <-> g = build l.
Proof.
  split.
  - intros H. exact (builds_unique l _ _ H (build_runs l)).
  - intros ->. apply build_runs.
Qed.

(** C9: the model is determined by the input: any two runs of the build
    step on one pair list, whatever stable sort the engine uses, give the
    same countries, the same node array (order and neighbour lists) and
    the same edge list. *)
Theorem build_deterministic (l : list (string * string)) (g1 g2 : GraphModel) :
  builds l g1 -> builds l g2 -> g1 = g2.
Proof. apply builds_unique. Qed.

Lemma build_deterministic_witness :
  let g :=
    mkModel ["A"; "B"; "C"] [mkLink "A" "B"; mkLink "B" "C"]
      [mkNode "B" ["A"; "C"] Undefined Undefined Undefined Undefined;
       mkNode "A" ["B"] Undefined Undefined Undefined Undefined;
       mkNode "C" ["B"] Undefined Undefined Undefined Undefined] in
  builds scenario (build scenario) /\ builds scenario g /\ build scenario = g.
Proof.
  cbv zeta. split; [apply build_runs|]. split; [exact (build_runs scenario)|].
  apply (build_deterministic scenario); exact (build_runs scenario).
Defined.

(** ** Derived styling *)

Lemma num_le (n m : nat) : n <= m -> (num n <= num m)%Q.
Proof. intros H. unfold num. rewrite <- Zle_Qle. lia. Qed.

Lemma num_nonneg (n : nat) : (0 <= num n)%Q.
Proof. apply (num_le 0). lia. Qed.

(** The capped share [Math.min(n / c, cap)] of the neighbour count. *)
Lemma capped_mono (c cap : Q) (n m : nat) :
  (0 < c)%Q -> n <= m -> (Qmin (num n / c) cap <= Qmin (num m / c) cap)%Q.
Proof.
  intros Hc H. apply Q.min_le_compat_r.
  unfold Qdiv. apply Qmult_le_compat_r; [now apply num_le|].
  apply Qlt_le_weak, Qinv_lt_0_compat, Hc.
Qed.

Lemma capped_bounds (c cap : Q) (n : nat) :
  (0 < c)%Q -> (0 <= cap)%Q -> (0 <= Qmin (num n / c) cap <= cap)%Q.
Proof.
  intros Hc Hcap. split; [|apply Q.le_min_r].
  apply Q.min_glb; [|exact Hcap].
  apply Qle_shift_div_l; [exact Hc|]. rewrite Qmult_0_l. apply num_nonneg.
Qed.

Lemma capped_full (c cap : Q) (n : nat) :
  (0 < c)%Q -> (cap * c <= num n)%Q -> (Qmin (num n / c) cap == cap)%Q.
Proof.
  intros Hc H. apply Q.min_r.
  now apply Qle_shift_div_l.
Qed.

Lemma min_num_full (n cap : nat) :
  cap <= n -> Qmin (num n) (num cap) = num cap.
Proof.
  intros H. unfold Qmin, GenericMinMax.gmin.
  destruct (Qcompare_spec (num n) (num cap)) as [E|L|G]; [|exfalso|reflexivity].
  - unfold num, Qeq in E. simpl in E.
    assert (n = cap) by lia. now subst.
  - apply Qlt_not_le in L. apply L. now apply num_le.
Qed.

(** C6: above its threshold each derived style keeps the value it has at
    the threshold: the radius from 10 neighbours on, the label font size
    from 20 on, the fill colour from 40 on. *)
Theorem styling_saturates (colorScale : Q -> string) (n : nat) :
  (10 <= n -> (radius_of n == radius_of 10)%Q) /\
  (20 <= n -> (font_size_of n == font_size_of 20)%Q) /\
  (40 <= n -> fill_of colorScale n = fill_of colorScale 40).
Proof.
  repeat split; intros H.
  - unfold radius_of. apply Qplus_inj_l.
    rewrite (capped_full 2 5 n), (capped_full 2 5 10);
      try reflexivity; try discriminate; apply (num_le 10 n H).
  - unfold font_size_of. apply Qplus_inj_l.
    rewrite (capped_full 10 2 n), (capped_full 10 2 20);
      try reflexivity; try discriminate; apply (num_le 20 n H).
  - unfold fill_of. change 40%Q with (num 40).
    now rewrite (min_num_full n 40 H), (min_num_full 40 40).
Qed.

Lemma styling_saturates_witness :
  (10 <= 50 /\ (radius_of 50 == radius_of 10)%Q) /\
  (20 <= 50 /\ (font_size_of 50 == font_size_of 20)%Q) /\
  (40 <= 50 /\ fill_of sample_scale 50 = fill_of sample_scale 40).
Proof.
  destruct (styling_saturates sample_scale 50) as (H1 & H2 & H3).
  split; [split; [lia | apply H1; lia]|].
  split; [split; [lia | apply H2; lia]|].
  split; [lia | apply H3; lia].
Defined.

(** C10: the base radius stays in [4, 9], the hovered radius in [8, 13]
    and the label font size in [10, 12], and none of them decreases when
    the neighbour count grows. *)
Theorem styling_bounded_monotone (n m : nat) :
  n <= m ->
  (4 <= radius_of n <= 9)%Q /\
  (8 <= hover_radius_of n <= 13)%Q /\
  (10 <= font_size_of n <= 12)%Q /\
  (radius_of n <= radius_of m)%Q /\
  (hover_radius_of n <= hover_radius_of m)%Q /\
  (font_size_of n <= font_size_of m)%Q.
Proof.
  intros H. unfold radius_of, hover_radius_of, font_size_of.
  destruct (capped_bounds 2 5 n) as [L2 U2]; try reflexivity; try discriminate.
  destruct (capped_bounds 10 2 n) as [L10 U10];
    try reflexivity; try discriminate.
  pose proof (capped_mono 2 5 n m eq_refl H) as M2.
  pose proof (capped_mono 10 2 n m eq_refl H) as M10.
  repeat split.
  - apply (Qplus_le_r 0 _ 4) in L2. exact L2.
  - apply (Qplus_le_r _ 5 4) in U2. exact U2.
  - apply (Qplus_le_r 0 _ 8) in L2. exact L2.
  - apply (Qplus_le_r _ 5 8) in U2. exact U2.
  - apply (Qplus_le_r 0 _ 10) in L10. exact L10.
  - apply (Qplus_le_r _ 2 10) in U10. exact U10.
  - now apply Qplus_le_r.
  - now apply Qplus_le_r.
  - now apply Qplus_le_r.
Qed.

Lemma styling_bounded_monotone_witness :
  3 <= 7 /\
  (4 <= radius_of 3 <= 9)%Q /\
  (8 <= hover_radius_of 3 <= 13)%Q /\
  (10 <= font_size_of 3 <= 12)%Q /\
  (radius_of 3 <= radius_of 7)%Q /\
  (hover_radius_of 3 <= hover_radius_of 7)%Q /\
  (font_size_of 3 <= font_size_of 7)%Q.
Proof.
  split; [lia|]. apply (styling_bounded_monotone 3 7). lia.
Defined.

(** ** Click notification *)

Lemma slice0_min {A : Type} (n : nat) (l : list A) :
  Array_slice0 n l = firstn (Nat.min n (List.length l)) l.
Proof.
  unfold Array_slice0. destruct (Nat.le_gt_cases n (List.length l)) as [H|H].
  - now rewrite Nat.min_l.
  - rewrite Nat.min_r by lia. rewrite firstn_all. apply firstn_all2. lia.
Qed.

Lemma overflow_iff (n : nat) :
  (5 < n <-> overflow n = " and " ++ toString (n - 5) ++ " more...")%string /\
  (n <= 5 <-> overflow n = "").
Proof.
  unfold overflow. destruct (Nat.ltb_spec 5 n) as [H|H]; simpl.
  - split; split; try reflexivity; try lia; try discriminate; intros _; exact H.
  - split; split; try reflexivity; try lia; try discriminate; intros _; exact H.
Qed.

(** C5: the notification of a click names the node and its neighbour
    count in its title; its description joins the first min(5, count)
    neighbour names and ends in the overflow suffix, which reports
    count - 5 and is there exactly when the node has more than 5
    neighbours. *)
Theorem click_notification (d : CountryNode) :
  (title (click d) =
     id d ++ " has borders with " ++ toString (degree d)
     ++ " countries")%string /\
  (description (click d) =
     Array_join ", " (firstn (Nat.min 5 (degree d)) (neighbors d))
     ++ overflow (degree d))%string /\
  List.length (firstn (Nat.min 5 (degree d)) (neighbors d)) =
    Nat.min 5 (degree d) /\
  (5 < degree d <->
   overflow (degree d) =
     " and " ++ toString (degree d - 5) ++ " more...")%string /\
  (degree d <= 5 <-> overflow (degree d) = "").
Proof.
  split; [reflexivity|]. split.
  - unfold click. cbn [description]. now rewrite slice0_min.
  - split; [|apply overflow_iff].
    rewrite length_firstn. unfold degree. lia.
Qed.

(** ** Viewport scale *)

Module ZoomFacts.
Import Zoom.

Lemma clamp_bounds (lo hi v : Q) :
  (lo <= hi)%Q -> (lo <= clamp lo hi v <= hi)%Q.
Proof.
  intros H. unfold clamp. split.
  - apply Q.le_max_l.
  - apply Q.max_lub; [exact H | apply Q.le_min_l].
Qed.

Lemma clamp_above (lo hi v : Q) :
  (lo <= hi)%Q -> (hi <= v)%Q -> (clamp lo hi v == hi)%Q.
Proof.
  intros H Hv. unfold clamp. rewrite (Q.min_l hi v Hv). now apply Q.max_r.
Qed.

Lemma clamp_below (lo hi v : Q) :
  (lo <= hi)%Q -> (v <= lo)%Q -> (clamp lo hi v == lo)%Q.
Proof.
  intros H Hv. unfold clamp. apply Q.max_l.
  apply Qle_trans with v; [apply Q.le_min_r | exact Hv].
Qed.

Lemma step_in_extent (t : Transform) (e : Event) : in_extent (step t e).
Proof.
  destruct e as [g|]; unfold in_extent; simpl.
  - apply clamp_bounds. discriminate.
  - split; discriminate.
Qed.

Lemma fold_step_in_extent (es : list Event) (t : Transform) :
  in_extent t -> in_extent (fold_left step es t).
Proof.
  revert t. induction es as [|e es IH]; intros t Ht; simpl; [exact Ht|].
  apply IH, step_in_extent.
Qed.

(** C7: after any sequence of pointer gestures and resets the scale lies
    in [0.1, 4]; a gesture asking for more than 4 leaves the scale at 4,
    one asking for less than 0.1 leaves it at 0.1. *)
Theorem scale_within_extent (es : list Event) (g : Gesture) :
  (1 # 10 <= k (run es) <= 4)%Q /\
  ((4 <= k (run es) * dscale g)%Q ->
   (k (applyGesture (run es) g) == 4)%Q) /\
  ((k (run es) * dscale g <= 1 # 10)%Q ->
   (k (applyGesture (run es) g) == 1 # 10)%Q).
Proof.
  split; [|split].
  - apply (fold_step_in_extent es zoomIdentity). split; discriminate.
  - intros H. simpl. now apply clamp_above.
  - intros H. simpl. now apply clamp_below.
Qed.

Lemma scale_within_extent_witness :
  let es := [Pointer (mkGesture 3 5 5); Reset; Pointer (mkGesture 2 0 7)] in
  ((1 # 10 <= k (run es) <= 4)%Q /\
   (4 <= k (run es) * 1000)%Q /\
   (k (applyGesture (run es) (mkGesture 1000 0 0)) == 4)%Q) /\
  ((k (run es) * (1 # 1000) <= 1 # 10)%Q /\
   (k (applyGesture (run es) (mkGesture (1 # 1000) 0 0)) == 1 # 10)%Q).
Proof.
  cbv zeta. split.
  - destruct (scale_within_extent
                [Pointer (mkGesture 3 5 5); Reset; Pointer (mkGesture 2 0 7)]
                (mkGesture 1000 0 0)) as (H1 & H2 & _).
    split; [exact H1|]. split; [discriminate | apply H2; discriminate].
  - destruct (scale_within_extent
                [Pointer (mkGesture 3 5 5); Reset; Pointer (mkGesture 2 0 7)]
                (mkGesture (1 # 1000) 0 0)) as (_ & _ & H3).
    split; [discriminate | apply H3; discriminate].
Defined.

End ZoomFacts.

(** ** Drag handlers *)

Lemma update_nth_same {A : Type} (f : A -> A) (l : list A) (n : nat) :
  nth_error (update_nth n f l) n = option_map f (nth_error l n).
Proof.
  revert n. induction l as [|a l IH]; intros [|n]; simpl; auto.
Qed.

Lemma update_nth_other {A : Type} (f : A -> A) (l : list A) (n m : nat) :
  n <> m -> nth_error (update_nth n f l) m = nth_error l m.
Proof.
  revert n m. induction l as [|a l IH]; intros [|n] [|m] H; simpl; auto;
    congruence.
Qed.

Lemma update_nth_length {A : Type} (f : A -> A) (l : list A) (n : nat) :
  List.length (update_nth n f l) = List.length l.
Proof.
  revert n. induction l as [|a l IH]; intros [|n]; simpl; auto.
Qed.

Lemma node_at_dragstarted (ev : DragEvent) (d : addr)
  (st : Store * Simulation) (n : CountryNode) :
  node_at st d = Some n ->
  node_at (dragstarted ev d st) d = Some (set_pin (x n) (y n) n).
Proof.
  destruct st as [h sim]. unfold node_at. simpl. intros H.
  now rewrite update_nth_same, H.
Qed.

Lemma node_at_dragged (ev : DragEvent) (d : addr)
  (st : Store * Simulation) (n : CountryNode) :
  node_at st d = Some n ->
  node_at (dragged ev d st) d =
  Some (set_pin (Num (ev_x ev)) (Num (ev_y ev)) n).
Proof.
  destruct st as [h sim]. unfold node_at. simpl. intros H.
  now rewrite update_nth_same, H.
Qed.

Lemma node_at_dragended (ev : DragEvent) (d : addr)
  (st : Store * Simulation) (n : CountryNode) :
  node_at st d = Some n ->
  node_at (dragended ev d st) d = Some (set_pin Null Null n).
Proof.
  destruct st as [h sim]. unfold node_at. simpl. intros H.
  now rewrite update_nth_same, H.
Qed.

(** While a drag lasts the node keeps its identity, neighbours and
    position fields; only [fx] and [fy] are written. *)
Lemma node_at_drag_moves (moves : list DragEvent) (d : addr)
  (st : Store * Simulation) (n : CountryNode) :
  node_at st d = Some n ->
  exists px py,
    node_at (drag_moves moves d st) d = Some (set_pin px py n) /\
    (moves = [] -> px = fx n /\ py = fy n) /\
    (forall ms last, moves = ms ++ [last] ->
       px = Num (ev_x last) /\ py = Num (ev_y last)).
Proof.
  revert st n. induction moves as [|ev moves IH]; intros st n H.
  - exists (fx n), (fy n). simpl. split; [|split].
    + rewrite H. now destruct n.
    + auto.
    + intros [|? ?] last E; discriminate.
  - destruct (IH _ _ (node_at_dragged ev d st n H)) as (px & py & E & H0 & Hl).
    exists px, py. split; [exact E|]. split; [discriminate|].
    intros ms last Hm. destruct ms as [|m ms]; simpl in Hm.
    + injection Hm as -> ->. destruct (H0 eq_refl) as [-> ->]. now split.
    + injection Hm as -> ->. now apply (Hl ms last).
Qed.

(** Other nodes are not touched by a drag of [d]. *)
Lemma handlers_other (ev : DragEvent) (d e : addr) (st : Store * Simulation) :
  d <> e ->
  node_at (dragstarted ev d st) e = node_at st e /\
  node_at (dragged ev d st) e = node_at st e /\
  node_at (dragended ev d st) e = node_at st e.
Proof.
  intros H. destruct st as [h sim]. unfold node_at. simpl.
  now rewrite !update_nth_other by exact H.
Qed.

Lemma drag_moves_other (moves : list DragEvent) (d e : addr)
  (st : Store * Simulation) :
  d <> e -> node_at (drag_moves moves d st) e = node_at st e.
Proof.
  intros H. revert st. induction moves as [|ev moves IH]; intros st;
    [reflexivity|].
  change (drag_moves (ev :: moves) d st)
    with (drag_moves moves d (dragged ev d st)).
  rewrite IH. now apply handlers_other.
Qed.

Lemma drag_gesture_other (start finish : DragEvent) (moves : list DragEvent)
  (d e : addr) (st : Store * Simulation) :
  d <> e -> node_at (drag_gesture start moves finish d st) e = node_at st e.
Proof.
  intros H. unfold drag_gesture.
  destruct (handlers_other finish d e
              (drag_moves moves d (dragstarted start d st)) H) as (_ & _ & ->).
  rewrite drag_moves_other by exact H.
  now apply handlers_other.
Qed.

(** C8: pointer-down pins the node at its current position, every
    pointer-move sets the pin to the pointer's coordinate, pointer-up
    clears it: after start, moves and end the node has [fx = fy = null],
    the value d3-force reads as not pinned, and is otherwise unchanged. *)
Theorem drag_pins_then_releases (st : Store * Simulation) (d : addr)
  (n : CountryNode) (start move finish : DragEvent) (moves : list DragEvent) :
  node_at st d = Some n ->
  node_at (dragstarted start d st) d =
    Some (mkNode (id n) (neighbors n) (x n) (y n) (x n) (y n)) /\
  node_at (dragged move d st) d =
    Some (mkNode (id n) (neighbors n) (x n) (y n)
            (Num (ev_x move)) (Num (ev_y move))) /\
  node_at (drag_moves (moves ++ [move]) d (dragstarted start d st)) d =
    Some (mkNode (id n) (neighbors n) (x n) (y n)
            (Num (ev_x move)) (Num (ev_y move))) /\
  node_at (dragended finish d st) d =
    Some (mkNode (id n) (neighbors n) (x n) (y n) Null Null) /\
  node_at (drag_gesture start moves finish d st) d =
    Some (mkNode (id n) (neighbors n) (x n) (y n) Null Null).
Proof.
  intros H.
  pose proof (node_at_dragstarted start d st n H) as Hs.
  split; [exact Hs|]. split; [exact (node_at_dragged move d st n H)|].
  split; [|split; [exact (node_at_dragended finish d st n H)|]].
  - destruct (node_at_drag_moves (moves ++ [move]) d _ _ Hs)
      as (px & py & E & _ & Hl).
    destruct (Hl moves move eq_refl) as [-> ->]. exact E.
  - destruct (node_at_drag_moves moves d _ _ Hs) as (px & py & E & _).
    unfold drag_gesture. now rewrite (node_at_dragended finish d _ _ E).
Qed.

Lemma drag_pins_then_releases_witness :
  let n := mkNode "A" ["B"] (Num 10) (Num 20) Undefined Undefined in
  let st := (mkStore [n] [], mkSim [0] [] (- (120)) 1 (1 # 100) 0 true) in
  let to_50_50 := mkDrag 0 50 50 in
  node_at st 0 = Some n /\
  node_at (dragged to_50_50 0 (dragstarted (mkDrag 0 10 20) 0 st)) 0 =
    Some (mkNode "A" ["B"] (Num 10) (Num 20) (Num 50) (Num 50)) /\
  node_at (drag_gesture (mkDrag 0 10 20) [to_50_50] (mkDrag 0 50 50) 0 st) 0 =
    Some (mkNode "A" ["B"] (Num 10) (Num 20) Null Null).
Proof.
  cbv zeta. split; [reflexivity|].
  destruct (drag_pins_then_releases
              (mkStore
                 [mkNode "A" ["B"] (Num 10) (Num 20) Undefined Undefined] [],
               mkSim [0] [] (- (120)) 1 (1 # 100) 0 true)
              0 (mkNode "A" ["B"] (Num 10) (Num 20) Undefined Undefined)
              (mkDrag 0 10 20) (mkDrag 0 50 50) (mkDrag 0 50 50)
              [mkDrag 0 50 50] eq_refl) as (_ & _ & _ & _ & H).
  split; [reflexivity | exact H].
Defined.

(** ** Changing the repulsion strength *)

Section ComponentFacts.
Variable adjacencyList : list (string * string).
Variable place : nat -> Q * Q.

(** The second effect on its own only replaces the charge strength and
    reheats: no object is created or written, the simulation keeps its
    node and link arrays. *)
Lemma strength_effect_frame (s : Q) (c : Component) :
  heap (strength_effect s c) = heap c /\
  live_nodes (strength_effect s c) = live_nodes c /\
  live_links (strength_effect s c) = live_links c /\
  deps (strength_effect s c) = deps c.
Proof.
  unfold strength_effect, live_nodes, live_links.
  destruct (simulationRef c) eqn:E; simpl; rewrite ?E; repeat split.
Qed.

Lemma strength_effect_reheats (s : Q) (c : Component) (sim : Simulation) :
  simulationRef c = Some sim ->
  exists sim', simulationRef (strength_effect s c) = Some sim' /\
    charge sim' = (- s)%Q /\ alpha sim' = (3 # 10)%Q /\ running sim' = true.
Proof.
  intros H. unfold strength_effect. rewrite H. eexists. simpl.
  repeat split.
Qed.


(** A render with a changed strength runs the build effect again: the
    simulation then works on objects allocated by that run, none of which
    existed before, while every earlier object is still in the arena. *)
Lemma render_changed_rebuilds (old s : Q) (c : Component) :
  deps c = Some old -> Qeq_bool old s = false ->
  let c' := render adjacencyList place s c in
  live_nodes c' =
    seq (List.length (node_objs (heap c)))
      (List.length (nodes (build adjacencyList))) /\
  live_links c' =
    seq (List.length (link_objs (heap c)))
      (List.length (links (build adjacencyList))) /\
  (forall a, In a (live_nodes c') -> nth_error (node_objs (heap c)) a = None) /\
  (forall a, In a (live_links c') -> nth_error (link_objs (heap c)) a = None) /\
  firstn (List.length (node_objs (heap c))) (node_objs (heap c')) =
    node_objs (heap c).
Proof.
  intros Hd Hs. cbv zeta. unfold render. rewrite Hd, Hs.
  unfold commit, strength_effect, build_effect, build_cleanup, live_nodes,
    live_links. simpl. repeat split.
  - intros a Ha. apply in_seq in Ha. apply nth_error_None. lia.
  - intros a Ha. apply in_seq in Ha. apply nth_error_None. lia.
  - rewrite firstn_app, Nat.sub_diag, firstn_all. simpl. apply app_nil_r.
Qed.

End ComponentFacts.

(** C1, evaluated on the code: mount on the scenario with strength 120,
    then render with 130.  The charge strength is replaced and the
    simulation reheated, but the build effect has run again: the
    simulation now works on node objects 3, 4, 5 and link objects 2, 3,
    freshly created and placed, not on the objects 0, 1, 2 and 0, 1 it had
    before, which remain in the arena as they were. *)
Theorem strength_change_rebuilds_graph (place : nat -> Q * Q) :
  let c1 := render scenario place 120 unmounted in
  let c2 := render scenario place 130 c1 in
  (live_nodes c1 = [0; 1; 2] /\ live_links c1 = [0; 1]) /\
  (live_nodes c2 = [3; 4; 5] /\ live_links c2 = [2; 3]) /\
  option_map charge (simulationRef c2) = Some (- (130))%Q /\
  option_map alpha (simulationRef c2) = Some (3 # 10)%Q /\
  firstn 3 (node_objs (heap c2)) = node_objs (heap c1) /\
  map id (skipn 3 (node_objs (heap c2))) = map id (node_objs (heap c1)) /\
  map x (skipn 3 (node_objs (heap c2))) =
    [Num (fst (place 0)); Num (fst (place 1)); Num (fst (place 2))].
Proof. cbv zeta. repeat split. Qed.

(** * Further properties of the builder *)

Lemma names_In (l : list (string * string)) (v : string) :
  In v (names l) <-> exists e, In e l /\ (fst e = v \/ snd e = v).
Proof.
  unfold names. rewrite in_flat_map. split.
  - intros (e & He & [H|[H|[]]]); exists e; auto.
  - intros (e & He & [H|H]); exists e; simpl; auto.
Qed.

Lemma node_ids_perm (l : list (string * string)) :
  Permutation (map id (nodes (build l))) (first_seen (names l)).
Proof.
  rewrite build_eq. cbn [nodes].
  rewrite <- (map_id_make_node (map link_of l) (first_seen (names l))) at 2.
  apply Permutation_map, (Array_sort_perm degree).
Qed.

Lemma node_ids_In (l : list (string * string)) (v : string) :
  In v (map id (nodes (build l))) <-> In v (names l).
Proof.
  split; intros H.
  - apply (proj1 (first_seen_In v (names l))).
    exact (Permutation_in v (node_ids_perm l) H).
  - apply (Permutation_in v (Permutation_sym (node_ids_perm l))).
    exact (proj2 (first_seen_In v (names l)) H).
Qed.

Lemma node_ids_NoDup (l : list (string * string)) :
  NoDup (map id (nodes (build l))).
Proof.
  apply (Permutation_NoDup (Permutation_sym (node_ids_perm l))).
  apply first_seen_NoDup.
Qed.

Lemma node_neighbors (l : list (string * string)) (d : CountryNode) :
  In d (nodes (build l)) ->
  neighbors d = neighbors_of (map link_of l) (id d).
Proof.
  intros H. apply build_node_shape in H. destruct H as [_ E].
  rewrite E at 1. reflexivity.
Qed.

(** Every edge joins two nodes of the model, and no two nodes share a
    name, so each end of an edge names exactly one node. *)
Theorem links_join_nodes (l : list (string * string)) (lk : CountryLink) :
  In lk (links (build l)) ->
  In (source lk) (map id (nodes (build l))) /\
  In (target lk) (map id (nodes (build l))) /\
  NoDup (map id (nodes (build l))).
Proof.
  intros H. rewrite build_eq in H. cbn [links] in H.
  apply in_map_iff in H. destruct H as (e & <- & He).
  rewrite !node_ids_In, !names_In. repeat split.
  - exists e. auto.
  - exists e. auto.
  - apply node_ids_NoDup.
Qed.

Lemma links_join_nodes_witness :
  In (mkLink "B" "C") (links (build scenario)) /\
  In "B" (map id (nodes (build scenario))) /\
  In "C" (map id (nodes (build scenario))) /\
  NoDup (map id (nodes (build scenario))).
Proof.
  split; [right; now left|].
  apply (links_join_nodes scenario (mkLink "B" "C")). right. now left.
Defined.

(** Every name in a neighbour list is the name of a node of the model. *)
Theorem neighbors_are_nodes (l : list (string * string)) (d : CountryNode)
  (u : string) :
  In d (nodes (build l)) -> In u (neighbors d) ->
  In u (map id (nodes (build l))).
Proof.
  intros Hd Hu. rewrite (node_neighbors l d Hd) in Hu.
  apply neighbors_of_In in Hu. apply node_ids_In, names_In.
  destruct Hu as [H|H]; eexists; (split; [exact H|]); simpl; auto.
Qed.

Lemma neighbors_are_nodes_witness :
  let b := mkNode "B" ["A"; "C"] Undefined Undefined Undefined Undefined in
  In b (nodes (build scenario)) /\ In "C" (neighbors b) /\
  In "C" (map id (nodes (build scenario))).
Proof.
  cbv zeta. split; [now left|]. split; [right; now left|].
  apply (neighbors_are_nodes scenario
           (mkNode "B" ["A"; "C"] Undefined Undefined Undefined Undefined) "C").
  - now left.
  - right. now left.
Defined.

(** No node is isolated: a node has at least one neighbour entry and at
    most one per input pair, so its radius is at least 4.5. *)
Theorem node_degree_bounds (l : list (string * string)) (d : CountryNode) :
  In d (nodes (build l)) ->
  1 <= degree d <= List.length l /\ (9 # 2 <= circle_r d)%Q.
Proof.
  intros Hd.
  assert (H1 : 1 <= degree d <= List.length l).
  { unfold degree. rewrite (node_neighbors l d Hd). split.
    - apply build_node_shape in Hd. destruct Hd as [Hn _].
      apply names_In in Hn. destruct Hn as ([s t] & He & Hv). simpl in Hv.
      assert (Hin : exists u, In u (neighbors_of (map link_of l) (id d))).
      { destruct Hv as [<-|<-].
        - exists t. apply neighbors_of_In. now right.
        - exists s. apply neighbors_of_In. now left. }
      destruct Hin as (u & Hu).
      destruct (neighbors_of (map link_of l) (id d)); [destruct Hu|simpl; lia].
    - unfold neighbors_of. rewrite length_map.
      rewrite <- (length_map link_of l). apply filter_length_le. }
  split; [exact H1|].
  unfold circle_r, radius_of.
  apply (Qplus_le_r (1 # 2) _ 4). apply Q.min_glb; [|discriminate].
  apply Qle_shift_div_l; [reflexivity|].
  apply Qle_trans with (num 1); [discriminate|].
  apply (num_le 1 (degree d)). lia.
Qed.

Lemma node_degree_bounds_witness :
  let a := mkNode "A" ["B"] Undefined Undefined Undefined Undefined in
  In a (nodes (build scenario)) /\
  1 <= degree a <= List.length scenario /\ (9 # 2 <= circle_r a)%Q.
Proof.
  cbv zeta. split; [right; now left|].
  apply (node_degree_bounds scenario). right. now left.
Defined.

(** Adjacency is symmetric, entry for entry: a node lists another as
    often as that one lists it. *)
Theorem neighbors_symmetric (l : list (string * string)) (du dv : CountryNode) :
  In du (nodes (build l)) -> In dv (nodes (build l)) ->
  count_occ string_dec (neighbors dv) (id du) =
  count_occ string_dec (neighbors du) (id dv).
Proof.
  intros Hu Hv.
  rewrite (node_neighbors l du Hu), (node_neighbors l dv Hv).
  rewrite !neighbors_of_count. rewrite (String.eqb_sym (id dv) (id du)).
  destruct (String.eqb_spec (id du) (id dv)) as [E|_]; [now rewrite E | lia].
Qed.

Lemma neighbors_symmetric_witness :
  let a := make_node (links (build mirrored)) "A" in
  let b := make_node (links (build mirrored)) "B" in
  In a (nodes (build mirrored)) /\ In b (nodes (build mirrored)) /\
  count_occ string_dec (neighbors b) (id a) =
  count_occ string_dec (neighbors a) (id b).
Proof.
  cbv zeta. split; [now left|]. split; [right; now left|].
  apply (neighbors_symmetric mirrored).
  - now left.
  - right. now left.
Defined.

(** ** Counting neighbour entries *)

Lemma list_sum_perm (l l' : list nat) :
  Permutation l l' -> list_sum l = list_sum l'.
Proof. induction 1; simpl; lia. Qed.

Lemma touching_sum_cons (cs : list string) (e : CountryLink)
  (ls : list CountryLink) :
  list_sum (map (fun v => List.length (filter (touches v) (e :: ls))) cs) =
  List.length (filter (fun v => touches v e) cs) +
  list_sum (map (fun v => List.length (filter (touches v) ls)) cs).
Proof.
  induction cs as [|v cs IH]; simpl; [reflexivity|].
  simpl in IH. rewrite IH. destruct (touches v e); simpl; lia.
Qed.

Lemma ends_count (cs : list string) (s t : string) :
  List.length (filter (fun v => touches v (mkLink s t)) cs) =
  count_occ string_dec cs s +
  (if (s =? t)%string then 0 else count_occ string_dec cs t).
Proof.
  unfold touches. cbn [source target].
  induction cs as [|v cs IH]; cbn [filter count_occ List.length].
  - now destruct (s =? t)%string.
  - revert IH. string_cases; subst; cbn [orb List.length];
      string_cases; subst; try congruence; lia.
Qed.

Lemma touching_sum (cs : list string) (l : list (string * string)) :
  NoDup cs ->
  (forall e, In e l -> In (fst e) cs /\ In (snd e) cs) ->
  list_sum
    (map (fun v => List.length (filter (touches v) (map link_of l))) cs) =
  list_sum (map pair_weight l).
Proof.
  intros Hcs. induction l as [|[s t] l IH]; intros Hl.
  - clear. induction cs as [|v cs IHc]; simpl; auto.
  - cbn [map]. rewrite touching_sum_cons, IH
      by (intros e He; apply Hl; now right).
    cbn [list_sum]. f_equal. unfold link_of, pair_weight. cbn [fst snd].
    rewrite ends_count. destruct (Hl (s, t) (or_introl eq_refl)) as [Hs Ht].
    cbn [fst snd] in Hs, Ht.
    rewrite (NoDup_count_occ' string_dec) in Hcs.
    rewrite (Hcs s Hs), (Hcs t Ht). now destruct (s =? t)%string.
Qed.

Lemma pair_weight_sum_le (l : list (string * string)) :
  list_sum (map pair_weight l) <= 2 * List.length l.
Proof.
  induction l as [|e l IH]; simpl; [lia|].
  unfold pair_weight at 1. destruct (fst e =? snd e)%string; lia.
Qed.

(** The neighbour entries of all nodes together: two for every input
    pair of two names, one for a pair of a name with itself; so never
    more than twice the number of pairs. *)
Theorem degree_sum (l : list (string * string)) :
  total_degree (build l) = list_sum (map pair_weight l) /\
  total_degree (build l) <= 2 * List.length l.
Proof.
  assert (E : total_degree (build l) = list_sum (map pair_weight l)).
  { unfold total_degree. rewrite build_eq. cbn [nodes].
    rewrite (list_sum_perm _ _
               (Permutation_map degree (Array_sort_perm degree _))).
    rewrite map_map. unfold degree, make_node, neighbors_of.
    cbn [neighbors].
    rewrite (map_ext _ (fun v =>
               List.length (filter (touches v) (map link_of l))))
      by (intros v; apply length_map).
    apply touching_sum; [apply first_seen_NoDup|].
    intros e He. rewrite !first_seen_In, !names_In.
    split; exists e; auto. }
  split; [exact E|]. rewrite E. apply pair_weight_sum_le.
Qed.

(** ** The loaded toast *)

Lemma names_length (l : list (string * string)) :
  List.length (names l) = 2 * List.length l.
Proof. induction l as [|e l IH]; simpl; lia. Qed.

Lemma first_seen_length (l : list string) :
  List.length (first_seen l) <= List.length l.
Proof.
  induction l as [|v l IH]; simpl; [lia|].
  pose proof (filter_length_le (fun w => negb (w =? v)%string) (first_seen l)).
  lia.
Qed.

Lemma nodes_length (l : list (string * string)) :
  List.length (nodes (build l)) = List.length (first_seen (names l)).
Proof.
  rewrite <- (length_map id). apply Permutation_length, node_ids_perm.
Qed.

(** The toast reports the number of nodes handed to the simulation and
    the number of input pairs; there are at most two countries per
    border, and none exactly when the input is empty. *)
Theorem loaded_message_counts (l : list (string * string)) :
  loaded_message (build l) =
    ("Loaded " ++ toString (List.length (nodes (build l)))
     ++ " countries with " ++ toString (List.length l) ++ " borders")%string /\
  List.length (nodes (build l)) <= 2 * List.length l /\
  (nodes (build l) = [] <-> l = []).
Proof.
  split; [|split].
  - unfold loaded_message. rewrite nodes_length, build_eq.
    cbn [countries links]. now rewrite length_map.
  - rewrite nodes_length, <- names_length. apply first_seen_length.
  - split.
    + intros H. apply (f_equal (@List.length _)) in H.
      rewrite nodes_length in H. destruct l as [|[s t] l]; [reflexivity|].
      simpl in H. discriminate.
    + intros ->. reflexivity.
Qed.

(** ** The later revision's neighbour computation *)

(** Reading the neighbours off the pairs, as the later revision does,
    gives the list the first revision reads off its link objects. *)
Theorem neighbors_from_pairs_same (l : list (string * string)) (v : string) :
  neighbors_from_pairs l v = neighbors_of (links (build l)) v.
Proof.
  rewrite build_eq. cbn [links]. unfold neighbors_from_pairs.
  induction l as [|[s t] l IH]; [reflexivity|].
  cbn [map]. unfold link_of at 1. cbn [fst snd].
  rewrite neighbors_of_cons, <- IH. cbn [filter fst snd].
  destruct (s =? v)%string eqn:Es; cbn [orb map fst snd].
  - now rewrite Es.
  - destruct (t =? v)%string; cbn [map fst snd]; [now rewrite Es|reflexivity].
Qed.

(** ** Sorting again *)

Lemma Array_sort_sorted_id {A : Type} (key : A -> nat) (l : list A) :
  StronglySorted (ge_key key) l -> Array_sort (by_key key) l = l.
Proof.
  intros H. apply (stable_sort_unique key l).
  - apply Array_sort_stable.
  - split; [exact H | reflexivity].
Qed.

(** Sorting the node array a second time changes nothing, and its first
    node is one with the most neighbours. *)
Theorem nodes_sorted_once (l : list (string * string)) (d : CountryNode) :
  In d (nodes (build l)) ->
  Array_sort by_connections (nodes (build l)) = nodes (build l) /\
  exists d0 rest, nodes (build l) = d0 :: rest /\ degree d <= degree d0.
Proof.
  intros Hd. pose proof (build_runs l) as (_ & _ & [S _]). split.
  - exact (Array_sort_sorted_id degree _ S).
  - destruct (nodes (build l)) as [|d0 rest]; [destruct Hd|].
    exists d0, rest. split; [reflexivity|].
    destruct Hd as [<-|Hd]; [lia|].
    inversion S as [|? ? _ Hall]. rewrite Forall_forall in Hall.
    exact (Hall d Hd).
Qed.

Lemma nodes_sorted_once_witness :
  let c := mkNode "C" ["B"] Undefined Undefined Undefined Undefined in
  In c (nodes (build scenario)) /\
  Array_sort by_connections (nodes (build scenario)) = nodes (build scenario) /\
  exists d0 rest, nodes (build scenario) = d0 :: rest /\ degree c <= degree d0.
Proof.
  cbv zeta. split; [right; right; now left|].
  apply (nodes_sorted_once scenario). right. right. now left.
Defined.

(** * Further properties of the interaction *)

(** ** Drag and the simulation *)

Lemma drag_moves_snd (moves : list DragEvent) (d : addr)
  (st : Store * Simulation) :
  snd (drag_moves moves d st) = snd st.
Proof.
  revert st. induction moves as [|ev moves IH]; intros st; [reflexivity|].
  change (drag_moves (ev :: moves) d st)
    with (drag_moves moves d (dragged ev d st)).
  rewrite IH. now destruct st.
Qed.

Lemma drag_moves_frame (moves : list DragEvent) (d : addr)
  (st : Store * Simulation) :
  List.length (node_objs (fst (drag_moves moves d st))) =
    List.length (node_objs (fst st)) /\
  link_objs (fst (drag_moves moves d st)) = link_objs (fst st).
Proof.
  revert st. induction moves as [|ev moves IH]; intros st; [now split|].
  change (drag_moves (ev :: moves) d st)
    with (drag_moves moves d (dragged ev d st)).
  destruct (IH (dragged ev d st)) as [-> ->]. destruct st as [h sim]. simpl.
  now rewrite update_nth_length.
Qed.

(** A drag with no other gesture active holds the alpha target at 0.3 and
    keeps the timer running while it lasts, and puts the target back to 0
    at the end; it never sets alpha itself, nor the charge, the decay or
    the arrays of the simulation. *)
Theorem drag_holds_alpha_target (start finish : DragEvent)
  (moves : list DragEvent) (d : addr) (st : Store * Simulation) :
  active start = 0 -> active finish = 0 ->
  let during := snd (drag_moves moves d (dragstarted start d st)) in
  let after := snd (drag_gesture start moves finish d st) in
  (alphaTarget during = (3 # 10)%Q /\ running during = true) /\
  (alphaTarget after = 0%Q /\ running after = true) /\
  alpha after = alpha (snd st) /\ charge after = charge (snd st) /\
  alphaDecay after = alphaDecay (snd st) /\
  sim_nodes after = sim_nodes (snd st) /\ sim_links after = sim_links (snd st).
Proof.
  intros Hs Hf. cbv zeta. unfold drag_gesture.
  destruct st as [h sim]. unfold dragended.
  destruct (drag_moves moves d (dragstarted start d (h, sim)))
    as [h' sim'] eqn:E.
  assert (E' : sim' = snd (dragstarted start d (h, sim))).
  { rewrite <- (drag_moves_snd moves d). now rewrite E. }
  unfold dragstarted in E'. rewrite Hs in E'. rewrite Hf. simpl in *.
  subst sim'. repeat split.
Qed.

Lemma drag_holds_alpha_target_witness :
  let n := mkNode "A" ["B"] (Num 10) (Num 20) Undefined Undefined in
  let st :=
    (mkStore [n] [], mkSim [0] [] (- (120)) (1 # 2) (1 # 100) 0 false) in
  let r := snd (drag_gesture (mkDrag 0 10 20) [mkDrag 0 50 50]
                  (mkDrag 0 50 50) 0 st) in
  active (mkDrag 0 10 20) = 0 /\
  alphaTarget r = 0%Q /\ running r = true /\ alpha r = (1 # 2)%Q.
Proof.
  cbv zeta.
  destruct (drag_holds_alpha_target (mkDrag 0 10 20) (mkDrag 0 50 50)
              [mkDrag 0 50 50] 0
              (mkStore
                 [mkNode "A" ["B"] (Num 10) (Num 20) Undefined Undefined] [],
               mkSim [0] [] (- (120)) (1 # 2) (1 # 100) 0 false)
              eq_refl eq_refl) as (_ & (H1 & H2) & H3 & _).
  split; [reflexivity|]. split; [exact H1|]. split; [exact H2 | exact H3].
Defined.

(** A drag of one node writes to no other node, creates and removes no
    object, and leaves the link objects alone. *)
Theorem drag_touches_one_node (start finish : DragEvent)
  (moves : list DragEvent) (d e : addr) (st : Store * Simulation) :
  d <> e ->
  node_at (drag_gesture start moves finish d st) e = node_at st e /\
  List.length (node_objs (fst (drag_gesture start moves finish d st))) =
    List.length (node_objs (fst st)) /\
  link_objs (fst (drag_gesture start moves finish d st)) = link_objs (fst st).
Proof.
  intros H. split; [now apply drag_gesture_other|].
  unfold drag_gesture.
  destruct (drag_moves_frame moves d (dragstarted start d st)) as [L K].
  destruct (drag_moves moves d (dragstarted start d st)) as [h' sim'].
  destruct st as [h sim]. simpl in *. rewrite update_nth_length in *.
  now split.
Qed.

Lemma drag_touches_one_node_witness :
  let a := mkNode "A" ["B"] (Num 10) (Num 20) Undefined Undefined in
  let b := mkNode "B" ["A"] (Num 30) (Num 40) Undefined Undefined in
  let st := (mkStore [a; b] [mkLink "A" "B"],
             mkSim [0; 1] [0] (- (120)) 1 (1 # 100) 0 true) in
  let r :=
    drag_gesture (mkDrag 0 10 20) [mkDrag 0 50 50] (mkDrag 0 50 50) 0 st in
  0 <> 1 /\ node_at r 1 = Some b /\
  List.length (node_objs (fst r)) = 2 /\
  link_objs (fst r) = [mkLink "A" "B"].
Proof.
  cbv zeta. split; [discriminate|].
  apply (drag_touches_one_node (mkDrag 0 10 20) (mkDrag 0 50 50)
           [mkDrag 0 50 50] 0 1
           (mkStore
              [mkNode "A" ["B"] (Num 10) (Num 20) Undefined Undefined;
               mkNode "B" ["A"] (Num 30) (Num 40) Undefined Undefined]
              [mkLink "A" "B"],
            mkSim [0; 1] [0] (- (120)) 1 (1 # 100) 0 true)).
  discriminate.
Defined.

(** ** Renders *)


Section RenderFacts.
Variable adjacencyList : list (string * string).
Variable place : nat -> Q * Q.




Lemma render_deps (s : Q) (c : Component) :
  exists o, deps (render adjacencyList place s c) = Some o /\
            Qeq_bool o s = true.
Proof.
  unfold render. destruct (deps c) as [old|] eqn:Hd.
  - destruct (Qeq_bool old s) eqn:E.
    + exists old. now split.
    + exists s. split; [reflexivity | apply Qeq_bool_refl].
  - exists s. split; [reflexivity | apply Qeq_bool_refl].
Qed.

(** A render that repeats the strength of the last one runs no effect:
    the component, its objects and its simulation stay as they are. *)
Theorem render_same_strength (s : Q) (c : Component) :
  render adjacencyList place s (render adjacencyList place s c) =
  render adjacencyList place s c.
Proof.
  destruct (render_deps s c) as (o & Hd & E).
  unfold render at 1. now rewrite Hd, E.
Qed.

End RenderFacts.

(** ** Hover *)

Lemma update_nth_twice {A : Type} (f g : A -> A) (l : list A) (n : nat) :
  update_nth n g (update_nth n f l) = update_nth n (fun a => g (f a)) l.
Proof.
  revert n. induction l as [|a l IH]; intros [|n]; simpl; auto.
  now rewrite IH.
Qed.

Lemma update_nth_fixed {A : Type} (f : A -> A) (l : list A) (n : nat) :
  (forall a, nth_error l n = Some a -> f a = a) -> update_nth n f l = l.
Proof.
  revert n. induction l as [|a l IH]; intros [|n] H; simpl; auto.
  - now rewrite (H a eq_refl).
  - rewrite IH; [reflexivity|]. intros b Hb. now apply H.
Qed.

Section HoverFacts.
Variable colorScale : Q -> string.
Variable h : Store.

Lemma reset_highlight (d : addr) (e : LineElem) :
  reset_line (highlight_line d e) = reset_line e.
Proof. unfold highlight_line. now destruct (incident d (line_datum e)). Qed.

(** Leaving a node settles its glyph and every line at values that do
    not depend on the hover before. *)
Lemma mouseout_mouseover (i : nat) (sc : Scene) :
  mouseout colorScale h i (mouseover h i sc) = mouseout colorScale h i sc.
Proof.
  unfold mouseover. destruct (nth_error (node_elems sc) i) as [e|] eqn:E;
    [|reflexivity].
  unfold mouseout. cbn [node_elems line_elems group_stroke group_opacity].
  rewrite update_nth_same, E. cbn [option_map node_datum].
  rewrite update_nth_twice, map_map. cbn [node_datum]. f_equal.
  apply map_ext, reset_highlight.
Qed.

Lemma mouseout_drawn (i : nat) (ns : list addr) (ls : list SimLink) :
  let sc := draw colorScale h ns ls in
  node_elems (mouseout colorScale h i sc) = node_elems sc /\
  painted_lines (mouseout colorScale h i sc) = painted_lines sc.
Proof.
  cbv zeta. unfold mouseout.
  destruct (nth_error (node_elems (draw colorScale h ns ls)) i) as [e|] eqn:E;
    [|now split].
  cbn [node_elems]. split.
  - apply update_nth_fixed. intros a Ha. rewrite E in Ha.
    injection Ha as <-. unfold draw in E. cbn [node_elems] in E.
    rewrite nth_error_map in E. destruct (nth_error ns i); [|discriminate].
    now injection E as <-.
  - unfold painted_lines, draw. cbn [line_elems]. rewrite !map_map.
    apply map_ext. reflexivity.
Qed.

(** Hovering a node of the freshly drawn graph and leaving it again
    gives back every glyph as drawn (radius, fill, hidden label) and
    every line painted as drawn (colour, opacity, width), although the
    lines now carry as their own the attributes they first inherited. *)
Theorem hover_then_leave (i : nat) (ns : list addr) (ls : list SimLink) :
  let sc := draw colorScale h ns ls in
  let sc' := mouseout colorScale h i (mouseover h i sc) in
  node_elems sc' = node_elems sc /\
  painted_lines sc' = painted_lines sc /\
  (i < List.length ns ->
   line_elems sc' = map reset_line (line_elems sc)).
Proof.
  cbv zeta. rewrite mouseout_mouseover.
  destruct (mouseout_drawn i ns ls) as [Hn Hl].
  split; [exact Hn|]. split; [exact Hl|].
  intros Hi. unfold mouseout.
  destruct (nth_error (node_elems (draw colorScale h ns ls)) i) eqn:E;
    [reflexivity|].
  apply nth_error_None in E. unfold draw in E. cbn [node_elems] in E.
  rewrite length_map in E. lia.
Qed.

(** While a node is hovered, the lines painted in the accent colour are
    those with that node at an end, all others are dimmed; the hovered
    glyph grows by 4 and no other glyph changes. *)
Theorem hover_highlights_incident (i : nat) (d : addr) (ns : list addr)
  (ls : list SimLink) :
  nth_error ns i = Some d ->
  let sc := mouseover h i (draw colorScale h ns ls) in
  painted_lines sc =
    map (fun l => if incident d l then ((8 # 10)%Q, "#FF6B6B", 2%Q)
                  else ((1 # 10)%Q, "#999", (8 # 10)%Q)) ls /\
  (exists e, nth_error (node_elems sc) i = Some e /\
     node_datum e = d /\ (attr_r e == radius_of (degree_at h d) + 4)%Q /\
     attr_fill e = "#FF6B6B" /\ text_opacity e = 1%Q) /\
  (forall j, j <> i ->
     nth_error (node_elems sc) j =
     option_map (draw_node colorScale h) (nth_error ns j)).
Proof.
  intros Hd. cbv zeta. unfold mouseover, draw. cbn [node_elems line_elems].
  rewrite nth_error_map, Hd. cbn [option_map node_datum draw_node].
  cbn [group_stroke group_opacity]. split; [|split].
  - unfold painted_lines. cbn [line_elems]. rewrite !map_map.
    apply map_ext. intros l. unfold highlight_line, draw_line.
    cbn [line_datum]. now destruct (incident d l).
  - eexists. cbn [node_elems]. rewrite update_nth_same, nth_error_map, Hd.
    cbn [option_map]. split; [reflexivity|]. cbn. repeat split.
    unfold hover_radius_of, radius_of. ring.
  - intros j Hj. cbn [node_elems].
    rewrite update_nth_other by congruence. apply nth_error_map.
Qed.

End HoverFacts.

Lemma hover_highlights_incident_witness :
  let h := mkStore
             [mkNode "B" ["A"; "C"] (Num 0) (Num 0) Undefined Undefined;
              mkNode "A" ["B"] (Num 1) (Num 0) Undefined Undefined;
              mkNode "C" ["B"] (Num 2) (Num 0) Undefined Undefined] [] in
  let ls := [mkSimLink 1 0; mkSimLink 0 2] in
  nth_error [0; 1; 2] 1 = Some 1 /\
  painted_lines (mouseover h 1 (draw sample_scale h [0; 1; 2] ls)) =
    [((8 # 10)%Q, "#FF6B6B", 2%Q); ((1 # 10)%Q, "#999", (8 # 10)%Q)].
Proof.
  cbv zeta. split; [reflexivity|].
  destruct (hover_highlights_incident sample_scale
              (mkStore
                 [mkNode "B" ["A"; "C"] (Num 0) (Num 0) Undefined Undefined;
                  mkNode "A" ["B"] (Num 1) (Num 0) Undefined Undefined;
                  mkNode "C" ["B"] (Num 2) (Num 0) Undefined Undefined] [])
              1 1 [0; 1; 2] [mkSimLink 1 0; mkSimLink 0 2] eq_refl)
    as (H & _).
  exact H.
Defined.

Lemma hover_then_leave_witness :
  let h := mkStore
             [mkNode "B" ["A"; "C"] (Num 0) (Num 0) Undefined Undefined;
              mkNode "A" ["B"] (Num 1) (Num 0) Undefined Undefined;
              mkNode "C" ["B"] (Num 2) (Num 0) Undefined Undefined] [] in
  let sc := draw sample_scale h [0; 1; 2] [mkSimLink 1 0; mkSimLink 0 2] in
  let sc' := mouseout sample_scale h 0 (mouseover h 0 sc) in
  0 < 3 /\
  node_elems sc' = node_elems sc /\ painted_lines sc' = painted_lines sc /\
  line_elems sc' = map reset_line (line_elems sc).
Proof.
  cbv zeta.
  destruct (hover_then_leave sample_scale
              (mkStore
                 [mkNode "B" ["A"; "C"] (Num 0) (Num 0) Undefined Undefined;
                  mkNode "A" ["B"] (Num 1) (Num 0) Undefined Undefined;
                  mkNode "C" ["B"] (Num 2) (Num 0) Undefined Undefined] [])
              0 [0; 1; 2] [mkSimLink 1 0; mkSimLink 0 2]) as (H1 & H2 & H3).
  split; [lia|]. split; [exact H1|]. split; [exact H2|].
  apply H3. simpl. lia.
Defined.
